(** * Mark: the microphone pipeline of [main.js]

    Shallow embedding of the audio core of [main.js]: the [data] handler of
    [micInputStream] (wake-word scanning over [audioBuffer] while not
    recording, chunk buffering and voice-activity classification while
    recording), [startUserSpeechRecording] and [stopUserSpeechRecording].

    - Node [Buffer]s are lists of bytes; [Buffer.concat] is [++] / [concat],
      [buf.slice(0, n)] is [firstn n buf] and [buf.slice(n)] is [skipn n buf].
    - [porcupine.process] is a stateful collaborator: its internal state is the
      sequence of PCM frames it has been given so far, so it is modelled as an
      arbitrary function of that history.  The byte frames handed to it are
      kept in the field [scored] of the state.
    - [vad.processAudio(data, sampleRate)] returns a promise; its [.then]
      callback runs later, from the event loop, after any number of further
      [data] events.  The unsettled promises are the field [pending]; an event
      [Resolve n o] settles the [n]-th of them with outcome [o], in any order.
    - What [stopUserSpeechRecording] hands to [saveAudioToFile] is emitted as
      an output [OFinalize audioData]; a wake detection emits [OWake]. *)

From Stdlib Require Import Strings.String.
From Stdlib Require Import List ZArith Lia Bool Strings.Byte.
From Stdlib Require QArith.QArith_base.
Import ListNotations.
Open Scope Z_scope.

(** ** Data *)

Definition bytes := list Byte.byte.

(** [buf.readInt16LE(off)]: little-endian signed 16-bit read. *)
Definition readInt16LE (buf : bytes) (off : nat) : Z :=
  let lo := Z.of_N (Byte.to_N (nth off buf Byte.x00)) in
  let hi := Z.of_N (Byte.to_N (nth (S off) buf Byte.x00)) in
  let v := lo + 256 * hi in
  if v >=? 32768 then v - 65536 else v.

(** The result of [node-vad]'s [processAudio]: [VAD.Event.*]. *)
Inductive vad_event := ERROR | SILENCE | VOICE | NOISE.

(** How a [processAudio] promise settles. *)
Inductive vad_outcome :=
| Resolved (res : vad_event)
| Rejected.

(** Module-level variables of [main.js] plus the collaborators' state. *)
Record state := mkState {
  isRecording : bool;
  speechBuffer : list bytes;
  audioBuffer : bytes;
  pending : list bytes;   (* chunks whose [processAudio] promise is unsettled *)
  scored : list bytes     (* frames handed to [porcupine.process], in order *)
}.

Definition init : state := mkState false [] [] [] [].

Inductive event :=
| Data (data : bytes)                  (* [micInputStream.on('data', ...)] *)
| Resolve (n : nat) (o : vad_outcome). (* the [n]-th pending promise settles *)

Inductive output :=
| OWake                                (* 'Wake word detected!' *)
| OFinalize (audioData : bytes)        (* [saveAudioToFile(audioData, ...)] *)
| OUnhandledRejection.                 (* a rejected [processAudio] promise *)

(** A [processAudio] promise that rejects reaches no handler: the [.then] has
    no rejection callback and there is no [.catch].  Node (>= 15) then
    terminates the process, so no event follows an [OUnhandledRejection]. *)
Definition halts (o : list output) : bool :=
  existsb (fun x => match x with OUnhandledRejection => true | _ => false end) o.

Fixpoint remove_nth {A} (n : nat) (l : list A) : list A :=
  match n, l with
  | _, [] => []
  | O, _ :: t => t
  | S n', h :: t => h :: remove_nth n' t
  end.

Section Pipeline.

(** [porcupine.frameLength] (512 for the shipped model). *)
Variable frameLength : nat.

(** [porcupine.process(pcm)]: keyword index (>= 0) or -1, as a function of
    every PCM frame the engine has processed, the current one last. *)
Variable porcupine_process : list (list Z) -> Z.

(** [let pcm = new Int16Array(frameLength); pcm[i] = frame.readInt16LE(i * 2)] *)
Definition to_pcm (frame : bytes) : list Z :=
  map (fun i => readInt16LE frame (2 * i)) (seq 0 frameLength).

Definition startUserSpeechRecording (s : state) : state :=
  mkState true [] (audioBuffer s) (pending s) (scored s).

Definition stopUserSpeechRecording (s : state) : state * list output :=
  let audioData := concat (speechBuffer s) in
  (mkState false (speechBuffer s) (audioBuffer s) (pending s) (scored s),
   [OFinalize audioData]).

(** The [while (audioBuffer.length >= frameLength * 2)] loop.  [fuel] bounds
    the iterations: with [frameLength > 0] each iteration consumes
    [frameLength * 2] bytes, so [S (length (audioBuffer s))] suffices. *)
Fixpoint wake_loop (fuel : nat) (s : state) : state * list output :=
  match fuel with
  | O => (s, [])
  | S fuel' =>
      if Nat.leb (frameLength * 2) (length (audioBuffer s)) then
        let frame := firstn (frameLength * 2) (audioBuffer s) in
        let s1 := mkState (isRecording s) (speechBuffer s)
                    (skipn (frameLength * 2) (audioBuffer s))
                    (pending s) (scored s ++ [frame]) in
        let keywordIndex := porcupine_process (map to_pcm (scored s1)) in
        if keywordIndex >=? 0
        then (startUserSpeechRecording s1, [OWake])
        else wake_loop fuel' s1
      else (s, [])
  end.

(** The [data] handler. *)
Definition on_data (s : state) (data : bytes) : state * list output :=
  if negb (isRecording s) then
    let buf := audioBuffer s ++ data in
    wake_loop (S (length buf))
      (mkState (isRecording s) (speechBuffer s) buf (pending s) (scored s))
  else
    (* [speechBuffer.push(data); vad.processAudio(data, sampleRate)] *)
    (mkState true (speechBuffer s ++ [data]) (audioBuffer s)
       (pending s ++ [data]) (scored s), []).

(** The [.then((res) => ...)] callback of a settled [processAudio] promise. *)
Definition on_resolve (s : state) (n : nat) (o : vad_outcome) : state * list output :=
  match nth_error (pending s) n with
  | None => (s, [])
  | Some _ =>
      let s1 := mkState (isRecording s) (speechBuffer s) (audioBuffer s)
                  (remove_nth n (pending s)) (scored s) in
      match o with
      | Resolved SILENCE => stopUserSpeechRecording s1
      | Resolved _ => (s1, [])
      | Rejected => (s1, [OUnhandledRejection])
      end
  end.

Definition step (s : state) (e : event) : state * list output :=
  match e with
  | Data d => on_data s d
  | Resolve n o => on_resolve s n o
  end.

Fixpoint run (s : state) (es : list event) : state * list output :=
  match es with
  | [] => (s, [])
  | e :: es' =>
      let (s1, o1) := step s e in
      if halts o1 then (s1, o1) else
      let (s2, o2) := run s1 es' in
      (s2, o1 ++ o2)
  end.

End Pipeline.

(** ** Downstream of a finalized segment

    [processUserSpeech] -> [processTranscription] -> [handleGeminiResponse]
    -> [setTimer] -> [playSound].  The remote calls (Groq transcription,
    Gemini [sendMessage]) are collaborators: their settled outcome is an input.
    Effects ([console.log], [console.error], [say.speak], [setTimeout],
    [player.play]) are emitted as a list, in program order. *)

(** A settled promise of the Groq or Gemini SDK. *)
Inductive outcome (A : Type) :=
| Ok (a : A)
| Err.
Arguments Ok {A} a.
Arguments Err {A}.

(** The value of [args.minutes]: absent ([undefined]) or a number, kept as
    the rational value of the (finite) double; no arithmetic is done on it. *)
Inductive jsval :=
| JUndef
| JNum (x : QArith_base.Q).

(** [part.functionCall]: [{ name, args }]; only [args.minutes] is read. *)
Record fcall := mkFcall { fc_name : String.string; fc_minutes : jsval }.

(** A response part: [part.functionCall] and [part.text], either absent. *)
Record part := mkPart { functionCall : option fcall; text : option String.string }.

(** The strings the code builds; template literals keep their argument. *)
Inductive msg :=
| MarkSays (responseText : String.string)    (* console.log('Mark:', responseText) *)
| Text (responseText : String.string)        (* say.speak(responseText) *)
| TimerSet (minutes : jsval)                 (* `Setting a timer for ${minutes} minutes.` *)
| TimerUp (minutes : jsval)                  (* `Timer for ${minutes} minutes is up!` *)
| TranscriptionText (text : String.string).  (* console.log('Transcription:', transcription.text) *)

Local Set Warnings "-register-all".
Inductive effect :=
| Log (m : msg)
| Speak (m : msg)
| ErrorLog (label : String.string)           (* console.error(label, error) *)
| SetTimeout (minutes : jsval) (callback : list effect) (* setTimeout(callback, minutes * 60 * 1000) *)
| PlayAlarm.                                 (* playSound(): player.play('alarm.mp3') *)

(** [responseText += part.text]: an absent text is appended as "undefined". *)
Definition js_append (acc : String.string) (t : option String.string) : String.string :=
  String.append acc (match t with Some x => x | None => "undefined"%string end).

Definition setTimer (minutes : jsval) : list effect :=
  [Log (TimerSet minutes); Speak (TimerSet minutes);
   SetTimeout minutes
     [Log (TimerUp minutes); Speak (TimerUp minutes); PlayAlarm]].

(** The [for (let part of parts)] loop: [(responseText, functionCalls)]. *)
Definition collect (parts : list part) : String.string * list fcall :=
  fold_left
    (fun (acc : String.string * list fcall) (p : part) =>
       let (responseText, functionCalls) := acc in
       match functionCall p with
       | Some f => (responseText, functionCalls ++ [f])
       | None => (js_append responseText (text p), functionCalls)
       end)
    parts (String.EmptyString, []).

(** [handleGeminiResponse(result)] on [result.response.candidates]; [None]
    when it throws ([candidates[0]] is [undefined] for an empty list). *)
Definition handleGeminiResponse (candidates : list (list part)) : option (list effect) :=
  match candidates with
  | [] => None
  | parts :: _ =>
      let (responseText, functionCalls) := collect parts in
      Some ((if String.eqb responseText String.EmptyString then []
             else [Log (MarkSays responseText); Speak (Text responseText)]) ++
            flat_map (fun f => if String.eqb (fc_name f) "setTimer"
                               then setTimer (fc_minutes f) else [])
                     functionCalls)
  end.

(** [processTranscription]: [sendMessage(...).then(handleGeminiResponse)
    .catch(console.error)]; an exception in the handler reaches the catch. *)
Definition processTranscription (reply : outcome (list (list part))) : list effect :=
  match reply with
  | Ok candidates =>
      match handleGeminiResponse candidates with
      | Some eff => eff
      | None => [ErrorLog "Error in Gemini API:"]
      end
  | Err => [ErrorLog "Error in Gemini API:"]
  end.

(** [processUserSpeech]: transcription, then [processTranscription]. *)
Definition processUserSpeech (transcription : outcome String.string)
    (reply : outcome (list (list part))) : list effect :=
  match transcription with
  | Ok text => Log (TranscriptionText text) :: processTranscription reply
  | Err => [ErrorLog "Error in transcription:"]
  end.

(** What one part contributes to [responseText] and to [functionCalls]. *)
Definition part_text (p : part) : String.string :=
  match functionCall p with
  | Some _ => String.EmptyString
  | None => match text p with Some x => x | None => "undefined"%string end
  end.

Definition part_calls (p : part) : list fcall :=
  match functionCall p with
  | Some f => [f]
  | None => []
  end.

(** ** Concrete configuration used in the examples: 2-sample frames and a
    scorer that fires on a frame whose first sample is 1. *)

Definition fl2 : nat := 2.

Definition hey (h : list (list Z)) : Z :=
  match rev h with
  | (1 :: _) :: _ => 0
  | _ => -1
  end.

Definition wake_frame : bytes := [Byte.x01; Byte.x00; Byte.x00; Byte.x00].
Definition frameB : bytes := [Byte.x02; Byte.x00; Byte.x03; Byte.x00].
Definition quiet : bytes := [Byte.x00; Byte.x00].
Definition quiet2 : bytes := [Byte.x00; Byte.x01].

(** A Gemini part calling [setTimer] for 5 minutes, and a text part. *)
Definition timer_call : part := mkPart (Some (mkFcall "setTimer" (JNum (QArith_base.Qmake 5 1)))) None.

Definition hello : part := mkPart None (Some "Hi"%string).

(** Eight bytes in three chunks of sizes 1, 5 and 2. *)
Definition chunks : list bytes :=
  [[Byte.x01]; [Byte.x02; Byte.x03; Byte.x04; Byte.x05; Byte.x06];
   [Byte.x07; Byte.x08]].

Definition never : list (list Z) -> Z := fun _ => -1.

(** A recording session holding one chunk whose promise is unsettled. *)
Definition rec1 : state := mkState true [quiet] [] [quiet] [].

(** The session right after the wake frame of [wake_frame ++ frameB]. *)
Definition after_wake : state := mkState true [] frameB [] [wake_frame].

(** Two chunks recorded, the first classified SILENCE before the second's
    promise settles; a new wake word arrives, then the second promise settles
    with SILENCE. *)
Definition race : list event :=
  [Data wake_frame; Data quiet; Data quiet2; Resolve 0 (Resolved SILENCE);
   Data wake_frame; Resolve 0 (Resolved SILENCE)].

(** ** Output bookkeeping *)

(** [wake_edge rec outs]: reading [outs] from a session whose mode is
    recording iff [rec], every [OWake] happens while the session is listening;
    [OWake] moves to recording and [OFinalize] back to listening. *)
Fixpoint wake_edge (rec : bool) (outs : list output) : bool :=
  match outs with
  | [] => true
  | OWake :: r => negb rec && wake_edge true r
  | OFinalize _ :: r => wake_edge false r
  | OUnhandledRejection :: r => wake_edge rec r
  end.

(** Number of segments handed to [saveAudioToFile]. *)
Fixpoint count_finalize (outs : list output) : nat :=
  match outs with
  | [] => O
  | OFinalize _ :: r => S (count_finalize r)
  | OWake :: r => count_finalize r
  | OUnhandledRejection :: r => count_finalize r
  end.

(** Number of [data] events. *)
Fixpoint count_data (es : list event) : nat :=
  match es with
  | [] => O
  | Data _ :: r => S (count_data r)
  | Resolve _ _ :: r => count_data r
  end.

(** The mode reached after the outputs [outs]. *)
Fixpoint track (rec : bool) (outs : list output) : bool :=
  match outs with
  | [] => rec
  | OWake :: r => track true r
  | OFinalize _ :: r => track false r
  | OUnhandledRejection :: r => track rec r
  end.

Lemma wake_edge_app rec o1 o2 :
  wake_edge rec (o1 ++ o2) = wake_edge rec o1 && wake_edge (track rec o1) o2.
Proof.
  revert rec; induction o1 as [|[|a|] o1 IH]; intro rec; simpl.
  - reflexivity.
  - rewrite IH, andb_assoc; reflexivity.
  - apply IH.
  - apply IH.
Qed.

Lemma track_app rec o1 o2 : track rec (o1 ++ o2) = track (track rec o1) o2.
Proof.
  revert rec; induction o1 as [|[|a|] o1 IH]; intro rec; simpl; auto.
Qed.

Section Lemmas.

Variable frameLength : nat.
Variable porcupine_process : list (list Z) -> Z.


(** The wake loop either stops without detection (mode unchanged) or fires
    exactly one wake event and enters recording with an empty buffer. *)
Lemma wake_loop_cases fuel s :
  let (s', o) := wake_loop frameLength porcupine_process fuel s in
  (o = [] /\ isRecording s' = isRecording s) \/
  (o = [OWake] /\ isRecording s' = true /\ speechBuffer s' = []).
Proof.
  revert s; induction fuel as [|fuel IH]; intro s; simpl.
  - auto.
  - destruct (Nat.leb _ _); [|auto].
    destruct (_ >=? 0); [simpl; auto|].
    specialize (IH (mkState (isRecording s) (speechBuffer s)
                      (skipn (frameLength * 2) (audioBuffer s)) (pending s)
                      (scored s ++ [firstn (frameLength * 2) (audioBuffer s)]))).
    destruct (wake_loop frameLength porcupine_process fuel _) as [s' o]; simpl in IH; exact IH.
Qed.

Lemma step_edge s e :
  let (s', o) := step frameLength porcupine_process s e in
  wake_edge (isRecording s) o = true /\ track (isRecording s) o = isRecording s'.
Proof.
  destruct e as [d|n o]; simpl.
  - unfold on_data.
    destruct (isRecording s) eqn:Hr; cbn [negb].
    + simpl; split; reflexivity.
    + pose proof (wake_loop_cases (S (length (audioBuffer s ++ d)))
                    (mkState false (speechBuffer s) (audioBuffer s ++ d)
                       (pending s) (scored s))) as H.
      destruct (wake_loop _ _ _ _) as [s' o].
      destruct H as [[-> H]|[-> [H _]]]; simpl in *; rewrite ?H; auto.
  - unfold on_resolve.
    destruct (nth_error (pending s) n); [|simpl; auto].
    destruct o as [[| | |]|]; simpl; auto.
Qed.

Lemma run_edge s es :
  let (s', o) := run frameLength porcupine_process s es in
  wake_edge (isRecording s) o = true /\ track (isRecording s) o = isRecording s'.
Proof.
  revert s; induction es as [|e es IH]; intro s; simpl.
  - auto.
  - pose proof (step_edge s e) as H1.
    destruct (step frameLength porcupine_process s e) as [s1 o1].
    destruct (halts o1); [exact H1|].
    specialize (IH s1).
    destruct (run frameLength porcupine_process s1 es) as [s2 o2].
    destruct H1 as [E1 T1]; destruct IH as [E2 T2].
    rewrite wake_edge_app, track_app, E1, T1, E2, T2; auto.
Qed.

(** Scanning without detection: the loop cuts the buffer into whole frames,
    in order, and keeps a residual shorter than one frame. *)
Lemma wake_loop_nodetect fuel s :
  (0 < frameLength)%nat ->
  (forall h, porcupine_process h < 0) ->
  (length (audioBuffer s) < fuel)%nat ->
  exists F r,
    wake_loop frameLength porcupine_process fuel s =
      (mkState (isRecording s) (speechBuffer s) r (pending s) (scored s ++ F), []) /\
    Forall (fun f => length f = (frameLength * 2)%nat) F /\
    concat F ++ r = audioBuffer s /\
    (length r < frameLength * 2)%nat.
Proof.
  intros Hfl Hnd; revert s; induction fuel as [|fuel IH]; intros s Hlen.
  - lia.
  - simpl. destruct (Nat.leb (frameLength * 2) (length (audioBuffer s))) eqn:Hle.
    + apply Nat.leb_le in Hle.
      pose proof (Hnd (map (to_pcm frameLength)
        (scored s ++ [firstn (frameLength * 2) (audioBuffer s)]))) as Hneg.
      destruct (_ >=? 0) eqn:Hge; [apply Z.geb_le in Hge; lia|].
      destruct (IH (mkState (isRecording s) (speechBuffer s)
                      (skipn (frameLength * 2) (audioBuffer s)) (pending s)
                      (scored s ++ [firstn (frameLength * 2) (audioBuffer s)])))
        as (F & r & Heq & HF & Hc & Hr);
        [simpl; rewrite length_skipn; lia|].
      exists (firstn (frameLength * 2) (audioBuffer s) :: F), r.
      simpl in Heq; rewrite Heq, <- app_assoc; simpl.
      repeat split; auto.
      * constructor; auto. rewrite length_firstn; lia.
      * simpl. rewrite <- app_assoc, Hc, firstn_skipn; reflexivity.
    + apply Nat.leb_gt in Hle.
      exists [], (audioBuffer s). rewrite app_nil_r.
      destruct s; repeat split; auto.
Qed.

Lemma run_data_nodetect cs s :
  (0 < frameLength)%nat ->
  (forall h, porcupine_process h < 0) ->
  isRecording s = false ->
  (length (audioBuffer s) < frameLength * 2)%nat ->
  exists F r,
    run frameLength porcupine_process s (map Data cs) =
      (mkState false (speechBuffer s) r (pending s) (scored s ++ F), []) /\
    Forall (fun f => length f = (frameLength * 2)%nat) F /\
    concat F ++ r = audioBuffer s ++ concat cs /\
    (length r < frameLength * 2)%nat.
Proof.
  intros Hfl Hnd; revert s; induction cs as [|c cs IH]; intros s Hrec Hlen.
  - exists [], (audioBuffer s); rewrite !app_nil_r.
    destruct s; simpl in *; subst; repeat split; auto.
  - simpl. unfold on_data. rewrite Hrec. cbn [negb].
    destruct (wake_loop_nodetect (S (length (audioBuffer s ++ c)))
                (mkState false (speechBuffer s) (audioBuffer s ++ c) (pending s)
                   (scored s)) Hfl Hnd) as (F1 & r1 & Heq1 & HF1 & Hc1 & Hr1);
      [simpl; lia|].
    cbn [isRecording speechBuffer audioBuffer pending scored] in Heq1; rewrite Heq1.
    destruct (IH (mkState false (speechBuffer s) r1 (pending s) (scored s ++ F1))
                eq_refl Hr1) as (F2 & r2 & Heq2 & HF2 & Hc2 & Hr2).
    rewrite Heq2; simpl in *.
    exists (F1 ++ F2), r2.
    rewrite app_assoc; repeat split; auto.
    + apply Forall_app; auto.
    + rewrite concat_app, <- app_assoc, Hc2, app_assoc, Hc1, app_assoc.
      reflexivity.
Qed.

End Lemmas.

Lemma length_concat_frames (n : nat) (F : list bytes) :
  Forall (fun f => length f = n) F -> length (concat F) = (n * length F)%nat.
Proof.
  induction 1 as [|f F Hf _ IH]; simpl; [lia|].
  rewrite length_app, Hf, IH; lia.
Qed.

(** Every settled promise in range drops out of [pending]; only a SILENCE
    result calls [stopUserSpeechRecording], and a rejection is unhandled. *)
Lemma on_resolve_in_range fl pp s n o :
  (n < length (pending s))%nat ->
  step fl pp s (Resolve n o) =
    match o with
    | Resolved SILENCE =>
        (mkState false (speechBuffer s) (audioBuffer s)
           (remove_nth n (pending s)) (scored s),
         [OFinalize (concat (speechBuffer s))])
    | Resolved _ =>
        (mkState (isRecording s) (speechBuffer s) (audioBuffer s)
           (remove_nth n (pending s)) (scored s), [])
    | Rejected =>
        (mkState (isRecording s) (speechBuffer s) (audioBuffer s)
           (remove_nth n (pending s)) (scored s), [OUnhandledRejection])
    end.
Proof.
  intro Hn; simpl; unfold on_resolve.
  destruct (nth_error (pending s) n) eqn:E.
  - destruct o as [[| | |]|]; reflexivity.
  - apply nth_error_None in E; lia.
Qed.

(** A recording step does not touch [audioBuffer]. *)
Lemma step_recording_audio fl pp s e :
  isRecording s = true -> audioBuffer (fst (step fl pp s e)) = audioBuffer s.
Proof.
  intro Hr; destruct e as [d|n o]; simpl.
  - unfold on_data; rewrite Hr; reflexivity.
  - unfold on_resolve; destruct (nth_error (pending s) n); [|reflexivity].
    destruct o as [[| | |]|]; reflexivity.
Qed.

(** A wake-loop pass that ends in recording has fired a wake with an empty
    speech buffer. *)
Lemma step_enter_recording fl pp s e :
  isRecording s = false -> isRecording (fst (step fl pp s e)) = true ->
  speechBuffer (fst (step fl pp s e)) = [].
Proof.
  intros Hr Hr'; destruct e as [d|n o].
  - revert Hr'; simpl; unfold on_data; rewrite Hr; cbn [negb].
    pose proof (wake_loop_cases fl pp (S (length (audioBuffer s ++ d)))
                  (mkState false (speechBuffer s) (audioBuffer s ++ d)
                     (pending s) (scored s))) as H.
    destruct (wake_loop _ _ _ _) as [s' o].
    destruct H as [[_ H]|[_ [_ H]]]; simpl in *; congruence.
  - revert Hr'; simpl; unfold on_resolve.
    destruct (nth_error (pending s) n); simpl; [|congruence].
    destruct o as [[| | |]|]; simpl; congruence.
Qed.

Lemma fst_run_cons fl pp s e es :
  halts (snd (step fl pp s e)) = false ->
  fst (run fl pp s (e :: es)) = fst (run fl pp (fst (step fl pp s e)) es).
Proof.
  simpl; destruct (step fl pp s e) as [s1 o1]; simpl; intros ->.
  destruct (run fl pp s1 es); reflexivity.
Qed.

(** The wake loop only appends to the frames handed to the scorer. *)
Lemma wake_loop_scored fl pp fuel s :
  exists rest, scored (fst (wake_loop fl pp fuel s)) = scored s ++ rest.
Proof.
  revert s; induction fuel as [|fuel IH]; intro s; simpl.
  - exists []; rewrite app_nil_r; reflexivity.
  - destruct (Nat.leb _ _).
    + destruct (_ >=? 0).
      * simpl; eexists; reflexivity.
      * destruct (IH (mkState (isRecording s) (speechBuffer s)
                        (skipn (fl * 2) (audioBuffer s)) (pending s)
                        (scored s ++ [firstn (fl * 2) (audioBuffer s)])))
          as [rest Hr].
        rewrite Hr; simpl; rewrite <- app_assoc; eexists; reflexivity.
    + exists []; rewrite app_nil_r; reflexivity.
Qed.

(** ** Claims *)

(** C1 (code bug). A chunk holding the wake frame followed by a whole frame
    B, then a chunk classified SILENCE: the segment handed to
    [saveAudioToFile] is only the silent chunk; B stays in [audioBuffer]. *)
Theorem wake_chunk_tail_not_buffered :
  run fl2 hey init
    [Data (wake_frame ++ frameB); Data quiet; Resolve 0 (Resolved SILENCE)]
  = (mkState false [quiet] frameB [] [wake_frame],
     [OWake; OFinalize quiet]).
Proof. reflexivity. Qed.

(** C2. When the scorer never detects, any chunking of [K] frames' worth of
    bytes is cut into exactly [K] frames of [frameLength * 2] bytes each,
    whose concatenation is the input, with no residual left. *)
Theorem frame_integrity (frameLength : nat) (porcupine_process : list (list Z) -> Z)
  (cs : list bytes) (K : nat) :
  (0 < frameLength)%nat ->
  (forall h, porcupine_process h < 0) ->
  length (concat cs) = (K * frameLength * 2)%nat ->
  let (s', o) := run frameLength porcupine_process init (map Data cs) in
  length (scored s') = K /\
  Forall (fun f => length f = (frameLength * 2)%nat) (scored s') /\
  concat (scored s') = concat cs /\
  audioBuffer s' = [] /\ isRecording s' = false /\ o = [].
Proof.
  intros Hfl Hnd Hlen.
  destruct (run_data_nodetect frameLength porcupine_process cs init Hfl Hnd
              eq_refl ltac:(simpl; lia)) as (F & r & -> & HF & Hc & Hr).
  simpl in *.
  assert (HL : (frameLength * 2 * length F + length r = K * frameLength * 2)%nat).
  { rewrite <- (length_concat_frames _ _ HF), <- length_app, Hc; exact Hlen. }
  assert (HK : length F = K) by nia.
  assert (Hr0 : length r = 0%nat) by nia.
  destruct r; [|discriminate].
  rewrite app_nil_r in Hc.
  repeat split; auto.
Qed.

Lemma frame_integrity_witness :
  (0 < fl2)%nat /\ (forall h, never h < 0) /\
  length (concat chunks) = (2 * fl2 * 2)%nat /\
  (let (s', o) := run fl2 never init (map Data chunks) in
   length (scored s') = 2%nat /\
   Forall (fun f => length f = (fl2 * 2)%nat) (scored s') /\
   concat (scored s') = concat chunks /\
   audioBuffer s' = [] /\ isRecording s' = false /\ o = []).
Proof.
  split; [unfold fl2; lia|].
  split; [intro h; unfold never; lia|].
  split; [reflexivity|].
  apply (frame_integrity fl2 never chunks 2);
    [unfold fl2; lia | intro h; unfold never; lia | reflexivity].
Defined.

(** C5. Edge triggering: along any run, for any scorer, any chunking and any
    classifier results, a wake event only fires while the session is
    listening; after one, no other fires before a finalization returns the
    session to listening. *)
Theorem edge_triggered_wake (frameLength : nat)
  (porcupine_process : list (list Z) -> Z) (s : state) (es : list event) :
  wake_edge (isRecording s) (snd (run frameLength porcupine_process s es)) = true.
Proof.
  pose proof (run_edge frameLength porcupine_process s es) as H.
  destruct (run frameLength porcupine_process s es) as [s' o]; apply H.
Qed.

(** C3 (corrected). Finalization does not empty the speech buffer: after a
    SILENCE result the mode is listening and [speechBuffer] still holds the
    finalized chunks; the next step that starts a recording empties it. *)
Theorem speech_buffer_cleared_at_wake (frameLength : nat)
  (porcupine_process : list (list Z) -> Z) (s : state) (n : nat) :
  isRecording s = true ->
  (n < length (pending s))%nat ->
  let s' := fst (step frameLength porcupine_process s (Resolve n (Resolved SILENCE))) in
  isRecording s' = false /\ speechBuffer s' = speechBuffer s /\
  (forall e, isRecording (fst (step frameLength porcupine_process s' e)) = true ->
             speechBuffer (fst (step frameLength porcupine_process s' e)) = []).
Proof.
  intros Hr Hn s'.
  assert (Hs' : s' = mkState false (speechBuffer s) (audioBuffer s)
                       (remove_nth n (pending s)) (scored s)).
  { unfold s'; rewrite on_resolve_in_range by exact Hn; reflexivity. }
  rewrite Hs'; repeat split; auto.
  intros e He; apply step_enter_recording; auto.
Qed.

Lemma speech_buffer_cleared_at_wake_witness :
  isRecording rec1 = true /\ (0 < length (pending rec1))%nat /\
  (let s' := fst (step fl2 hey rec1 (Resolve 0 (Resolved SILENCE))) in
   isRecording s' = false /\ speechBuffer s' = speechBuffer rec1 /\
   (forall e, isRecording (fst (step fl2 hey s' e)) = true ->
              speechBuffer (fst (step fl2 hey s' e)) = [])).
Proof.
  split; [reflexivity|]. split; [simpl; lia|].
  apply (speech_buffer_cleared_at_wake fl2 hey rec1 0); [reflexivity | simpl; lia].
Defined.

(** C3 counterexample: wake, one chunk, SILENCE: the session is listening
    with a non-empty speech buffer. *)
Lemma listening_with_speech :
  let s' := fst (run fl2 hey init
                   [Data wake_frame; Data quiet; Resolve 0 (Resolved SILENCE)]) in
  isRecording s' = false /\ speechBuffer s' = [quiet] /\ speechBuffer s' <> [].
Proof. simpl. repeat split. discriminate. Qed.




(** C6. While recording, a settled classification ends the recording exactly
    when it is SILENCE, whatever came before (no debounce): it finalizes the
    buffered chunks and sets the mode to listening.  Any other result leaves
    the session recording with no output; a rejection leaves it recording as
    an unhandled rejection. *)
Theorem silence_ends_recording (frameLength : nat)
  (porcupine_process : list (list Z) -> Z) (s : state) (n : nat) (o : vad_outcome) :
  isRecording s = true ->
  (n < length (pending s))%nat ->
  step frameLength porcupine_process s (Resolve n o) =
    match o with
    | Resolved SILENCE =>
        (mkState false (speechBuffer s) (audioBuffer s)
           (remove_nth n (pending s)) (scored s),
         [OFinalize (concat (speechBuffer s))])
    | Resolved _ =>
        (mkState true (speechBuffer s) (audioBuffer s)
           (remove_nth n (pending s)) (scored s), [])
    | Rejected =>
        (mkState true (speechBuffer s) (audioBuffer s)
           (remove_nth n (pending s)) (scored s), [OUnhandledRejection])
    end.
Proof.
  intros Hr Hn.
  rewrite on_resolve_in_range by exact Hn.
  destruct o as [[| | |]|]; rewrite ?Hr; reflexivity.
Qed.

Lemma silence_ends_recording_witness :
  isRecording rec1 = true /\ (0 < length (pending rec1))%nat /\
  step fl2 hey rec1 (Resolve 0 (Resolved SILENCE)) =
    (mkState false [quiet] [] [] [], [OFinalize quiet]).
Proof.
  split; [reflexivity|]. split; [simpl; lia|].
  exact (silence_ends_recording fl2 hey rec1 0 (Resolved SILENCE)
           eq_refl ltac:(simpl; lia)).
Defined.

(** C8 (corrected). [stopUserSpeechRecording] has no empty-segment guard:
    it always sets the mode to listening and hands the concatenated buffer,
    0 bytes when nothing is buffered, to [saveAudioToFile]; nothing from the
    write flows back into the session. *)
Theorem stop_unguarded (s : state) :
  stopUserSpeechRecording s =
    (mkState false (speechBuffer s) (audioBuffer s) (pending s) (scored s),
     [OFinalize (concat (speechBuffer s))]) /\
  isRecording (fst (stopUserSpeechRecording s)) = false /\
  snd (stopUserSpeechRecording
         (mkState (isRecording s) [] (audioBuffer s) (pending s) (scored s)))
    = [OFinalize []].
Proof. repeat split. Qed.

(** C8 counterexample: a stale SILENCE result reaches
    [stopUserSpeechRecording] right after a new wake word, with nothing
    buffered, and a 0-byte segment is finalized instead of an error. *)
Lemma empty_segment_finalized :
  last (snd (run fl2 hey init race)) OWake = OFinalize [].
Proof. reflexivity. Qed.

(** C9 (code bug). The race run: the second recorded chunk [quiet2] is
    classified SILENCE only after a new wake word has reset [speechBuffer],
    so the segment it triggers is empty and does not contain it. *)
Theorem stale_silence_loses_trigger :
  run fl2 hey init race =
    (mkState false [] [] [] [wake_frame; wake_frame],
     [OWake; OFinalize (quiet ++ quiet2); OWake; OFinalize []]).
Proof. reflexivity. Qed.

(** C10. Along a run during which every step starts in recording,
    [audioBuffer] keeps the bytes it held at the wake event; once the session
    is listening again, the next chunk is appended to them and the first frame
    scanned for the wake word is taken from their front. *)
Theorem residual_kept_while_recording (frameLength : nat)
  (porcupine_process : list (list Z) -> Z) (s : state) (es : list event) (d : bytes) :
  (forall k, (k < length es)%nat ->
     isRecording (fst (run frameLength porcupine_process s (firstn k es))) = true) ->
  isRecording (fst (run frameLength porcupine_process s es)) = false ->
  (frameLength * 2 <= length (audioBuffer s ++ d))%nat ->
  let s' := fst (run frameLength porcupine_process s es) in
  audioBuffer s' = audioBuffer s /\
  exists rest,
    scored (fst (step frameLength porcupine_process s' (Data d))) =
      scored s' ++ firstn (frameLength * 2) (audioBuffer s ++ d) :: rest.
Proof.
  intros Hrec Hl Hlen s'.
  assert (Hab : audioBuffer s' = audioBuffer s).
  { unfold s'; clear Hl Hlen s'.
    revert s Hrec; induction es as [|e es IH]; intros s Hrec; [reflexivity|].
    assert (H0 : audioBuffer (fst (step frameLength porcupine_process s e)) = audioBuffer s)
      by (apply step_recording_audio, (Hrec 0%nat); simpl; lia).
    destruct (halts (snd (step frameLength porcupine_process s e))) eqn:Hh.
    - cbn [run]. destruct (step frameLength porcupine_process s e) as [s1 o1].
      simpl in Hh, H0 |- *. rewrite Hh. exact H0.
    - rewrite fst_run_cons by exact Hh. rewrite IH; [exact H0|].
      intros k Hk.
      rewrite <- fst_run_cons by exact Hh.
      apply (Hrec (S k)); simpl; lia. }
  split; [exact Hab|].
  simpl; unfold on_data.
  fold s' in Hl; rewrite Hl, Hab; cbn [negb].
  cbn [wake_loop audioBuffer isRecording speechBuffer pending scored].
  apply Nat.leb_le in Hlen; rewrite Hlen.
  destruct (_ >=? 0).
  - simpl; exists []; reflexivity.
  - edestruct wake_loop_scored as [rest ->]; simpl.
    rewrite <- app_assoc; eexists; reflexivity.
Qed.

Lemma residual_kept_while_recording_witness :
  (forall k, (k < 2)%nat ->
     isRecording (fst (run fl2 hey after_wake
                        (firstn k [Data quiet; Resolve 0 (Resolved SILENCE)]))) = true) /\
  isRecording (fst (run fl2 hey after_wake
                     [Data quiet; Resolve 0 (Resolved SILENCE)])) = false /\
  (fl2 * 2 <= length (audioBuffer after_wake ++ quiet))%nat /\
  (let s' := fst (run fl2 hey after_wake [Data quiet; Resolve 0 (Resolved SILENCE)]) in
   audioBuffer s' = audioBuffer after_wake /\
   exists rest,
     scored (fst (step fl2 hey s' (Data quiet))) =
       scored s' ++ firstn (fl2 * 2) (audioBuffer after_wake ++ quiet) :: rest).
Proof.
  assert (H1 : forall k, (k < 2)%nat ->
     isRecording (fst (run fl2 hey after_wake
                        (firstn k [Data quiet; Resolve 0 (Resolved SILENCE)]))) = true).
  { intros k Hk; destruct k as [|[|k]]; [reflexivity | reflexivity | lia]. }
  split; [exact H1|]. split; [reflexivity|]. split; [simpl; lia|].
  apply (residual_kept_while_recording fl2 hey after_wake
           [Data quiet; Resolve 0 (Resolved SILENCE)] quiet H1 eq_refl).
  simpl; lia.
Defined.

(** ** Further properties of the code *)

Lemma byte_to_N_inj x y : Byte.to_N x = Byte.to_N y -> x = y.
Proof.
  intro H; pose proof (Byte.of_to_N x) as Hx; pose proof (Byte.of_to_N y) as Hy.
  rewrite H in Hx; congruence.
Qed.

Lemma byte_Z_bound x : 0 <= Z.of_N (Byte.to_N x) <= 255.
Proof. pose proof (Byte.to_N_bounded x); lia. Qed.

(** Equal 16-bit reads come from equal byte pairs. *)
Lemma readInt16LE_inj f1 f2 off :
  readInt16LE f1 off = readInt16LE f2 off ->
  nth off f1 Byte.x00 = nth off f2 Byte.x00 /\
  nth (S off) f1 Byte.x00 = nth (S off) f2 Byte.x00.
Proof.
  unfold readInt16LE.
  pose proof (byte_Z_bound (nth off f1 Byte.x00)).
  pose proof (byte_Z_bound (nth (S off) f1 Byte.x00)).
  pose proof (byte_Z_bound (nth off f2 Byte.x00)).
  pose proof (byte_Z_bound (nth (S off) f2 Byte.x00)).
  rewrite !Z.geb_leb.
  destruct (Z.leb_spec 32768 (Z.of_N (Byte.to_N (nth off f1 Byte.x00)) +
                               256 * Z.of_N (Byte.to_N (nth (S off) f1 Byte.x00))));
  destruct (Z.leb_spec 32768 (Z.of_N (Byte.to_N (nth off f2 Byte.x00)) +
                               256 * Z.of_N (Byte.to_N (nth (S off) f2 Byte.x00))));
  intro Heq; split; apply byte_to_N_inj, N2Z.inj; lia.
Qed.

(** X1. [readInt16LE] always yields a signed 16-bit sample, so the
    assignment [pcm[i] = ...] into the [Int16Array] stores it unchanged. *)
Theorem readInt16LE_range (buf : bytes) (off : nat) :
  -32768 <= readInt16LE buf off <= 32767.
Proof.
  unfold readInt16LE.
  pose proof (byte_Z_bound (nth off buf Byte.x00)).
  pose proof (byte_Z_bound (nth (S off) buf Byte.x00)).
  rewrite Z.geb_leb.
  destruct (Z.leb_spec 32768 (Z.of_N (Byte.to_N (nth off buf Byte.x00)) +
                               256 * Z.of_N (Byte.to_N (nth (S off) buf Byte.x00))));
  lia.
Qed.

(** X2. The PCM conversion of a frame loses nothing: two frames of
    [frameLength * 2] bytes with the same [Int16Array] are the same frame. *)
Theorem to_pcm_injective (frameLength : nat) (f1 f2 : bytes) :
  length f1 = (frameLength * 2)%nat ->
  length f2 = (frameLength * 2)%nat ->
  to_pcm frameLength f1 = to_pcm frameLength f2 -> f1 = f2.
Proof.
  intros H1 H2 H.
  assert (Hi : forall i, (i < frameLength)%nat ->
             readInt16LE f1 (2 * i) = readInt16LE f2 (2 * i)).
  { intros i Hi. unfold to_pcm in H.
    set (g1 := fun i => readInt16LE f1 (2 * i)) in H.
    set (g2 := fun i => readInt16LE f2 (2 * i)) in H.
    change (g1 i = g2 i).
    assert (E : nth i (seq 0 frameLength) 0%nat = i)
      by (rewrite seq_nth; [reflexivity | exact Hi]).
    rewrite <- E.
    rewrite <- (map_nth g1), H, (nth_indep _ (g1 0%nat) (g2 0%nat)), map_nth;
      [reflexivity|].
    rewrite length_map, length_seq; exact Hi. }
  apply (nth_ext f1 f2 Byte.x00 Byte.x00); [congruence|].
  intros k Hk; rewrite H1 in Hk.
  destruct (Nat.Even_or_Odd k) as [[i ->]|[i ->]].
  - apply (readInt16LE_inj f1 f2), Hi; lia.
  - rewrite Nat.add_1_r. apply (readInt16LE_inj f1 f2), Hi; lia.
Qed.

Lemma to_pcm_injective_witness :
  length frameB = (fl2 * 2)%nat /\ length frameB = (fl2 * 2)%nat /\
  (to_pcm fl2 frameB = to_pcm fl2 frameB -> frameB = frameB).
Proof.
  split; [reflexivity|]. split; [reflexivity|].
  exact (to_pcm_injective fl2 frameB frameB eq_refl eq_refl).
Defined.

(** One pass of the wake loop with enough fuel: it scans whole frames from
    the front of [audioBuffer], in order, until the first frame the scorer
    accepts (then recording starts) or until less than a frame is left. *)
Lemma wake_loop_spec fl pp fuel s :
  (0 < fl)%nat -> (length (audioBuffer s) < fuel)%nat ->
  let (s', o) := wake_loop fl pp fuel s in
  exists F,
    scored s' = scored s ++ F /\
    Forall (fun f => length f = (fl * 2)%nat) F /\
    concat F ++ audioBuffer s' = audioBuffer s /\
    pending s' = pending s /\
    (forall k, (S k < length F)%nat ->
       pp (map (to_pcm fl) (scored s ++ firstn (S k) F)) < 0) /\
    ((o = [] /\ isRecording s' = isRecording s /\
      speechBuffer s' = speechBuffer s /\
      (length (audioBuffer s') < fl * 2)%nat /\
      (F = [] \/ pp (map (to_pcm fl) (scored s ++ F)) < 0)) \/
     (o = [OWake] /\ F <> [] /\ pp (map (to_pcm fl) (scored s ++ F)) >= 0 /\
      isRecording s' = true /\ speechBuffer s' = [])).
Proof.
  intros Hfl; revert s; induction fuel as [|fuel IH]; intros s Hlen; [lia|].
  simpl. destruct (Nat.leb (fl * 2) (length (audioBuffer s))) eqn:Hle.
  - apply Nat.leb_le in Hle.
    set (f := firstn (fl * 2) (audioBuffer s)).
    assert (Hf : length f = (fl * 2)%nat) by (unfold f; rewrite length_firstn; lia).
    assert (Hc : f ++ skipn (fl * 2) (audioBuffer s) = audioBuffer s)
      by apply firstn_skipn.
    rewrite Z.geb_leb.
    destruct (Z.leb_spec 0 (pp (map (to_pcm fl) (scored s ++ [f])))) as [Hd|Hd].
    + exists [f]; simpl; rewrite app_nil_r.
      repeat split; auto.
      * intros k Hk; simpl in Hk; lia.
      * right; repeat split; auto; [discriminate | lia].
    + specialize (IH (mkState (isRecording s) (speechBuffer s)
                        (skipn (fl * 2) (audioBuffer s)) (pending s)
                        (scored s ++ [f]))).
      destruct (wake_loop fl pp fuel _) as [s' o].
      destruct IH as (F & HS & HF & HC & HP & Hpre & Hend);
        [simpl; rewrite length_skipn; lia|].
      simpl in HS, HC, HP, Hend.
      exists (f :: F).
      rewrite HS, <- app_assoc; simpl.
      repeat split; auto.
      * rewrite <- app_assoc, HC; exact Hc.
      * cbn [scored] in Hpre.
        intros [|k] Hk.
        -- exact Hd.
        -- change (firstn (S (S k)) (f :: F)) with (f :: firstn (S k) F).
           pose proof (Hpre k ltac:(simpl in Hk; lia)) as Hk'.
           rewrite <- app_assoc in Hk'; exact Hk'.
      * rewrite <- !app_assoc in Hend.
        destruct Hend as [(Ho & Hr & Hsb & Hl & [-> | Hn]) | (Ho & Hne & Hp & Hr & Hsb)].
        -- left; repeat split; auto.
        -- left; repeat split; auto.
        -- right; repeat split; auto; discriminate.
  - apply Nat.leb_gt in Hle.
    exists []; rewrite app_nil_r; simpl.
    repeat split; auto.
    + intros k Hk; simpl in Hk; lia.
    + left; repeat split; auto.
Qed.

Lemma listening_data_spec fl pp s d :
  (0 < fl)%nat -> isRecording s = false ->
  let (s', o) := step fl pp s (Data d) in
  exists F,
    scored s' = scored s ++ F /\
    Forall (fun f => length f = (fl * 2)%nat) F /\
    concat F ++ audioBuffer s' = audioBuffer s ++ d /\
    pending s' = pending s /\
    (forall k, (S k < length F)%nat ->
       pp (map (to_pcm fl) (scored s ++ firstn (S k) F)) < 0) /\
    ((o = [] /\ isRecording s' = false /\
      speechBuffer s' = speechBuffer s /\
      (length (audioBuffer s') < fl * 2)%nat /\
      (F = [] \/ pp (map (to_pcm fl) (scored s ++ F)) < 0)) \/
     (o = [OWake] /\ F <> [] /\ pp (map (to_pcm fl) (scored s ++ F)) >= 0 /\
      isRecording s' = true /\ speechBuffer s' = [])).
Proof.
  intros Hfl Hr; simpl; unfold on_data; rewrite Hr; cbn [negb].
  exact (wake_loop_spec fl pp (S (length (audioBuffer s ++ d)))
           (mkState false (speechBuffer s) (audioBuffer s ++ d) (pending s) (scored s))
           Hfl ltac:(simpl; lia)).
Qed.

(** X3. While listening, a chunk is appended to [audioBuffer] and cut into
    whole frames from the front: the frames handed to [porcupine.process]
    followed by the new [audioBuffer] are exactly the old [audioBuffer]
    followed by the chunk; no byte is lost, duplicated or reordered, even when
    the wake word fires. *)
Theorem listening_step_conserves_bytes (frameLength : nat)
  (porcupine_process : list (list Z) -> Z) (s : state) (d : bytes) :
  (0 < frameLength)%nat -> isRecording s = false ->
  let (s', o) := step frameLength porcupine_process s (Data d) in
  exists F,
    scored s' = scored s ++ F /\
    Forall (fun f => length f = (frameLength * 2)%nat) F /\
    concat F ++ audioBuffer s' = audioBuffer s ++ d.
Proof.
  intros Hfl Hr.
  pose proof (listening_data_spec frameLength porcupine_process s d Hfl Hr) as H.
  destruct (step frameLength porcupine_process s (Data d)) as [s' o].
  destruct H as (F & HS & HF & HC & _).
  exists F; auto.
Qed.

Lemma listening_step_conserves_bytes_witness :
  (0 < fl2)%nat /\ isRecording init = false /\
  (let (s', o) := step fl2 hey init (Data (wake_frame ++ frameB)) in
   exists F,
     scored s' = scored init ++ F /\
     Forall (fun f => length f = (fl2 * 2)%nat) F /\
     concat F ++ audioBuffer s' = audioBuffer init ++ (wake_frame ++ frameB)).
Proof.
  split; [unfold fl2; lia|]. split; [reflexivity|].
  apply (listening_step_conserves_bytes fl2 hey init (wake_frame ++ frameB));
    [unfold fl2; lia | reflexivity].
Defined.

(** X4. While listening, a chunk's frames are scored in order and scanning
    stops at the first accepted frame: every frame before the last one
    scored was rejected; a wake event fires (and recording starts with an
    empty speech buffer) exactly when the last scored frame was accepted;
    otherwise less than a frame is left in [audioBuffer]. *)
Theorem wake_scan_first_detection (frameLength : nat)
  (porcupine_process : list (list Z) -> Z) (s : state) (d : bytes) :
  (0 < frameLength)%nat -> isRecording s = false ->
  let (s', o) := step frameLength porcupine_process s (Data d) in
  exists F,
    scored s' = scored s ++ F /\
    (forall k, (S k < length F)%nat ->
       porcupine_process (map (to_pcm frameLength) (scored s ++ firstn (S k) F)) < 0) /\
    ((o = [] /\ isRecording s' = false /\
      (length (audioBuffer s') < frameLength * 2)%nat /\
      (F = [] \/ porcupine_process (map (to_pcm frameLength) (scored s ++ F)) < 0)) \/
     (o = [OWake] /\ F <> [] /\
      porcupine_process (map (to_pcm frameLength) (scored s ++ F)) >= 0 /\
      isRecording s' = true /\ speechBuffer s' = [])).
Proof.
  intros Hfl Hr.
  pose proof (listening_data_spec frameLength porcupine_process s d Hfl Hr) as H.
  destruct (step frameLength porcupine_process s (Data d)) as [s' o].
  destruct H as (F & HS & _ & _ & _ & Hpre & Hend).
  exists F; split; [exact HS|]; split; [exact Hpre|].
  destruct Hend as [(Ho & Hr' & _ & Hl & Hn) | Hw]; [left | right]; auto.
Qed.

Lemma wake_scan_first_detection_witness :
  (0 < fl2)%nat /\ isRecording init = false /\
  (let (s', o) := step fl2 hey init (Data (frameB ++ wake_frame ++ frameB)) in
   exists F,
     scored s' = scored init ++ F /\
     (forall k, (S k < length F)%nat ->
        hey (map (to_pcm fl2) (scored init ++ firstn (S k) F)) < 0) /\
     ((o = [] /\ isRecording s' = false /\
       (length (audioBuffer s') < fl2 * 2)%nat /\
       (F = [] \/ hey (map (to_pcm fl2) (scored init ++ F)) < 0)) \/
      (o = [OWake] /\ F <> [] /\
       hey (map (to_pcm fl2) (scored init ++ F)) >= 0 /\
       isRecording s' = true /\ speechBuffer s' = []))).
Proof.
  split; [unfold fl2; lia|]. split; [reflexivity|].
  apply (wake_scan_first_detection fl2 hey init (frameB ++ wake_frame ++ frameB));
    [unfold fl2; lia | reflexivity].
Defined.

(** X5. While recording, a run of chunks is appended to [speechBuffer] and
    to the unsettled classifications in arrival order; [audioBuffer] and the
    scorer are untouched and nothing is output. *)
Theorem recording_appends_chunks (frameLength : nat)
  (porcupine_process : list (list Z) -> Z) (s : state) (ds : list bytes) :
  isRecording s = true ->
  run frameLength porcupine_process s (map Data ds) =
    (mkState true (speechBuffer s ++ ds) (audioBuffer s) (pending s ++ ds)
       (scored s), []).
Proof.
  revert s; induction ds as [|d ds IH]; intros s Hr.
  - destruct s; simpl in *; subst; rewrite !app_nil_r; reflexivity.
  - simpl; unfold on_data; rewrite Hr; cbn [negb].
    rewrite IH by reflexivity; simpl.
    rewrite <- !app_assoc; reflexivity.
Qed.

Lemma recording_appends_chunks_witness :
  isRecording rec1 = true /\
  run fl2 hey rec1 (map Data [quiet2; frameB]) =
    (mkState true (speechBuffer rec1 ++ [quiet2; frameB]) (audioBuffer rec1)
       (pending rec1 ++ [quiet2; frameB]) (scored rec1), []).
Proof.
  split; [reflexivity|].
  exact (recording_appends_chunks fl2 hey rec1 [quiet2; frameB] eq_refl).
Defined.

(** X6. While recording, if the two oldest unsettled classifications both
    settle SILENCE, one right after the other with no event in between, the
    same segment is saved twice: the second one runs
    [stopUserSpeechRecording] again while listening, on the buffer that was
    never cleared. *)
Theorem double_silence_saves_twice (frameLength : nat)
  (porcupine_process : list (list Z) -> Z) (s : state) :
  isRecording s = true -> (2 <= length (pending s))%nat ->
  run frameLength porcupine_process s
    [Resolve 0 (Resolved SILENCE); Resolve 0 (Resolved SILENCE)] =
    (mkState false (speechBuffer s) (audioBuffer s) (skipn 2 (pending s)) (scored s),
     [OFinalize (concat (speechBuffer s)); OFinalize (concat (speechBuffer s))]).
Proof.
  intros Hr Hn.
  destruct s as [r sb ab [|p1 [|p2 ps]] sc]; simpl in *; try lia.
  reflexivity.
Qed.

Lemma double_silence_saves_twice_witness :
  isRecording (mkState true [quiet; quiet2] [] [quiet; quiet2] []) = true /\
  (2 <= length (pending (mkState true [quiet; quiet2] [] [quiet; quiet2] [])))%nat /\
  snd (run fl2 hey (mkState true [quiet; quiet2] [] [quiet; quiet2] [])
         [Resolve 0 (Resolved SILENCE); Resolve 0 (Resolved SILENCE)]) =
    [OFinalize (quiet ++ quiet2); OFinalize (quiet ++ quiet2)].
Proof.
  split; [reflexivity|]. split; [simpl; lia|].
  rewrite (double_silence_saves_twice fl2 hey
             (mkState true [quiet; quiet2] [] [quiet; quiet2] []) eq_refl
             ltac:(simpl; lia)).
  reflexivity.
Defined.

Lemma count_finalize_app o1 o2 :
  count_finalize (o1 ++ o2) = (count_finalize o1 + count_finalize o2)%nat.
Proof. induction o1 as [|[|a|] o1 IH]; simpl; auto. Qed.

Lemma wake_loop_pending fl pp fuel s :
  pending (fst (wake_loop fl pp fuel s)) = pending s.
Proof.
  revert s; induction fuel as [|fuel IH]; intro s; simpl; [reflexivity|].
  destruct (Nat.leb _ _); [|reflexivity].
  destruct (_ >=? 0); [reflexivity|].
  rewrite IH; reflexivity.
Qed.

Lemma length_remove_nth {A} n (l : list A) :
  (n < length l)%nat -> S (length (remove_nth n l)) = length l.
Proof.
  revert l; induction n as [|n IH]; intros [|a l] H; simpl in *; try lia.
  rewrite IH; lia.
Qed.

Lemma step_finalize_bound fl pp s e :
  let (s', o) := step fl pp s e in
  (count_finalize o + length (pending s') <=
   length (pending s) + match e with Data _ => 1 | Resolve _ _ => 0 end)%nat.
Proof.
  destruct e as [d|n o]; simpl.
  - unfold on_data; destruct (isRecording s) eqn:Hr; cbn [negb].
    + simpl; rewrite length_app; simpl; lia.
    + pose proof (wake_loop_cases fl pp (S (length (audioBuffer s ++ d)))
                    (mkState false (speechBuffer s) (audioBuffer s ++ d)
                       (pending s) (scored s))) as H.
      pose proof (wake_loop_pending fl pp (S (length (audioBuffer s ++ d)))
                    (mkState false (speechBuffer s) (audioBuffer s ++ d)
                       (pending s) (scored s))) as HP.
      destruct (wake_loop _ _ _ _) as [s' o]; simpl in HP; rewrite HP.
      destruct H as [[-> _]|[-> _]]; simpl; lia.
  - unfold on_resolve.
    destruct (nth_error (pending s) n) eqn:E; [|simpl; lia].
    assert (Hn : (n < length (pending s))%nat)
      by (apply nth_error_Some; congruence).
    pose proof (length_remove_nth n (pending s) Hn).
    destruct o as [[| | |]|]; simpl; lia.
Qed.

(** X7. Along any run, the segments saved plus the classifications still
    unsettled never exceed the classifications unsettled at the start plus
    the chunks received: from [init], [saveAudioToFile] runs at most once per
    chunk received. *)
Theorem finalizations_bounded (frameLength : nat)
  (porcupine_process : list (list Z) -> Z) (s : state) (es : list event) :
  let (s', o) := run frameLength porcupine_process s es in
  (count_finalize o + length (pending s') <= length (pending s) + count_data es)%nat.
Proof.
  revert s; induction es as [|e es IH]; intro s; simpl; [lia|].
  pose proof (step_finalize_bound frameLength porcupine_process s e) as H1.
  destruct (step frameLength porcupine_process s e) as [s1 o1].
  destruct (halts o1); [destruct e; lia|].
  specialize (IH s1).
  destruct (run frameLength porcupine_process s1 es) as [s2 o2].
  rewrite count_finalize_app.
  destruct e; simpl in *; lia.
Qed.

Lemma string_append_assoc (a b c : String.string) :
  String.append a (String.append b c) = String.append (String.append a b) c.
Proof. induction a as [|x a IH]; simpl; [reflexivity|]. rewrite IH; reflexivity. Qed.

Lemma string_append_empty (a : String.string) : String.append a String.EmptyString = a.
Proof. induction a as [|x a IH]; simpl; [reflexivity|]. rewrite IH; reflexivity. Qed.

(** The [for] loop of [handleGeminiResponse], from any accumulator. *)
Lemma collect_from parts t fs :
  fold_left
    (fun (acc : String.string * list fcall) (p : part) =>
       let (responseText, functionCalls) := acc in
       match functionCall p with
       | Some f => (responseText, functionCalls ++ [f])
       | None => (js_append responseText (text p), functionCalls)
       end) parts (t, fs) =
  (String.append t (fold_right String.append String.EmptyString (map part_text parts)),
   fs ++ flat_map part_calls parts).
Proof.
  revert t fs; induction parts as [|p parts IH]; intros t fs; simpl.
  - rewrite string_append_empty, app_nil_r; reflexivity.
  - unfold part_text, part_calls.
    destruct (functionCall p) as [f|]; rewrite IH; simpl.
    + rewrite <- app_assoc; reflexivity.
    + unfold js_append; rewrite <- string_append_assoc; reflexivity.
Qed.

Lemma collect_spec parts :
  collect parts =
  (fold_right String.append String.EmptyString (map part_text parts), flat_map part_calls parts).
Proof. unfold collect; rewrite collect_from; reflexivity. Qed.

(** X8. [handleGeminiResponse] reads only the first candidate: Mark says,
    once, the text of its non-call parts joined in order (a part with neither
    a call nor a text counts as "undefined"), unless that is empty; then each
    [setTimer] call, in order, announces and schedules its timer; calls of
    other names do nothing. *)
Theorem handle_response_spec (parts : list part) (rest : list (list part)) :
  handleGeminiResponse (parts :: rest) =
    let responseText := fold_right String.append String.EmptyString (map part_text parts) in
    Some ((if String.eqb responseText String.EmptyString then []
           else [Log (MarkSays responseText); Speak (Text responseText)]) ++
          flat_map (fun f => if String.eqb (fc_name f) "setTimer"
                             then setTimer (fc_minutes f) else [])
                   (flat_map part_calls parts)).
Proof. unfold handleGeminiResponse; rewrite collect_spec; reflexivity. Qed.

(** X9. A first candidate made only of function calls makes Mark say
    nothing: the effects are exactly those of its [setTimer] calls. *)
Theorem calls_only_silent (parts : list part) (rest : list (list part)) :
  Forall (fun p => functionCall p <> None) parts ->
  handleGeminiResponse (parts :: rest) =
    Some (flat_map (fun f => if String.eqb (fc_name f) "setTimer"
                             then setTimer (fc_minutes f) else [])
                   (flat_map part_calls parts)).
Proof.
  intro H; unfold handleGeminiResponse; rewrite collect_spec.
  replace (fold_right String.append String.EmptyString (map part_text parts)) with String.EmptyString;
    [reflexivity|].
  induction H as [|p parts Hp _ IH]; [reflexivity|].
  simpl; unfold part_text; destruct (functionCall p); [|congruence].
  exact IH.
Qed.

Lemma calls_only_silent_witness :
  Forall (fun p => functionCall p <> None) [timer_call] /\
  handleGeminiResponse [[timer_call]] = Some (setTimer (JNum (QArith_base.Qmake 5 1)) ++ []).
Proof.
  split; [constructor; [discriminate | constructor]|].
  rewrite (calls_only_silent [timer_call] []) by (constructor; [discriminate | constructor]).
  reflexivity.
Defined.


